(** * The nonlinear Poisson notebook (notebooks/nonlinear_poisson.ipynb)

    The notebook manufactures a test problem for
    [-div (q(u) grad u) = f] with SymPy, turns the symbolic expressions
    into C code strings for FEniCS [Expression] objects, calls the FEniCS
    Newton solver and prints the error at the mesh vertices.

    The notebook's own code is embedded statement by statement.  The three
    libraries it drives are collaborators: the SymPy fragment the notebook
    exercises (integers, symbols, pi, sums, products, integer powers) is
    modelled in [Module sym]; NumPy's one-dimensional array subtraction
    and maximum in [Module np]; FEniCS is an interface, a record of
    operations the notebook is parametric in. *)

From Stdlib Require Import ZArith List String Ascii Bool Lia.
From Stdlib Require Import DecimalString.
From Stdlib Require QArith_base.
From Stdlib Require Import Reals.
Import ListNotations.

Local Open Scope string_scope.
Local Open Scope Z_scope.

(** ** Strings *)

Module Str.

(** [t.startswith(s)] of Python. *)
Fixpoint startswith (t s : string) {struct s} : bool :=
  match s, t with
  | EmptyString, _ => true
  | String a s', String b t' => Ascii.eqb a b && startswith t' s'
  | String _ _, EmptyString => false
  end.

(** [s in t] of Python: [s] occurs in [t] as a contiguous piece. *)
Fixpoint contains (s t : string) : bool :=
  startswith t s
  || match t with
     | EmptyString => false
     | String _ t' => contains s t'
     end.

(** The same as a proposition, for the proofs. *)
Definition occurs_in (s t : string) : Prop :=
  exists p r, t = p ++ s ++ r.


Definition of_Z (z : Z) : string := NilZero.string_of_int (Z.to_int z).
Definition of_nat (n : nat) : string := NilZero.string_of_uint (Nat.to_uint n).

End Str.

(** ** The SymPy fragment *)

Module sym.

(** Expression trees.  The notebook builds them with Python's arithmetic
    operators on [Symbol]s and integers; exponents are Python integer
    literals. *)
Inductive Expr : Type :=
| Integer (z : Z)
| Symbol (name : string)
| Pi
| Add (a b : Expr)
| Mul (a b : Expr)
| Pow (b : Expr) (n : nat).

Declare Scope sympy_scope.
Delimit Scope sympy_scope with py.
Bind Scope sympy_scope with Expr.
Coercion Integer : Z >-> Expr.

(** Python's operators on SymPy objects: [-a] is [(-1)*a] and [a - b] is
    [a + (-1)*b]. *)
Definition Neg (a : Expr) : Expr := Mul (Integer (-1)) a.
Definition Sub (a b : Expr) : Expr := Add a (Neg b).

Notation "a + b" := (Add a b) : sympy_scope.
Notation "a * b" := (Mul a b) : sympy_scope.
Notation "a - b" := (Sub a b) : sympy_scope.
Notation "- a" := (Neg a) : sympy_scope.
Notation "a ** n" := (Pow a n) (at level 30, right associativity) : sympy_scope.

(** *** Canonical form

    SymPy keeps every expression automatically evaluated: sums and
    products are flattened, like terms are collected and the arguments
    are put in a canonical order.  On this fragment the model does all of
    that in one place, [canon], which expands an expression into a sum of
    monomials.  (SymPy leaves the power of a sum as it is until it is
    asked to simplify; expanding at once changes no value, and the
    expressions that the notebook prints are sums of monomials.)  A
    monomial has a numeric part, an integer coefficient and a power of
    pi, and a symbolic part, the symbols in name order with their
    exponents. *)

Definition vars := list (string * nat).
Definition mono := (nat * vars)%type.      (* power of pi, symbols *)
Definition term := (mono * Z)%type.
Definition poly := list term.

(** The product of two symbolic parts: a merge that adds exponents. *)
Fixpoint vmul (v1 : vars) : vars -> vars :=
  match v1 with
  | [] => fun v2 => v2
  | (a, i) :: r1 =>
      fix merge (v2 : vars) : vars :=
        match v2 with
        | [] => v1
        | (b, j) :: r2 =>
            match String.compare a b with
            | Eq => (a, (i + j)%nat) :: vmul r1 r2
            | Lt => (a, i) :: vmul r1 v2
            | Gt => (b, j) :: merge r2
            end
        end
  end.

Definition mmul (m1 m2 : mono) : mono :=
  ((fst m1 + fst m2)%nat, vmul (snd m1) (snd m2)).

(** The order of the terms of a sum when it is printed: lexicographic on
    the exponents, first symbol first, highest exponent first. *)
Fixpoint vcmp (v1 v2 : vars) : comparison :=
  match v1, v2 with
  | [], [] => Eq
  | [], _ :: _ => Lt
  | _ :: _, [] => Gt
  | (a, i) :: r1, (b, j) :: r2 =>
      match String.compare a b with
      | Lt => Gt
      | Gt => Lt
      | Eq => match Nat.compare i j with
              | Eq => vcmp r1 r2
              | c => c
              end
      end
  end.

(** Terms with the same symbols differ in their power of pi, a number:
    the lower power, the smaller number for the coefficients that occur
    here, comes first, as in [1 + pi]. *)
Definition mcmp (m1 m2 : mono) : comparison :=
  match vcmp (snd m1) (snd m2) with
  | Eq => Nat.compare (fst m2) (fst m1)
  | c => c
  end.

(** Adding one term to a sum: like terms are collected, a term whose
    coefficient becomes zero disappears. *)
Fixpoint pinsert (t : term) (p : poly) : poly :=
  match p with
  | [] => [t]
  | t' :: r =>
      match mcmp (fst t) (fst t') with
      | Gt => t :: p
      | Eq => let c := snd t + snd t' in
              if c =? 0 then r else (fst t, c) :: r
      | Lt => t' :: pinsert t r
      end
  end.

Definition padd (p1 p2 : poly) : poly := fold_right pinsert p2 p1.

Definition tmul (t1 t2 : term) : term :=
  (mmul (fst t1) (fst t2), snd t1 * snd t2).

Definition pmul (p1 p2 : poly) : poly :=
  fold_right (fun t1 acc => fold_right (fun t2 acc' => pinsert (tmul t1 t2) acc') acc p2)
             [] p1.

Definition pconst (z : Z) : poly := if z =? 0 then [] else [((0%nat, []), z)].

Fixpoint ppow (p : poly) (n : nat) : poly :=
  match n with
  | O => pconst 1
  | S k => pmul p (ppow p k)
  end.

Fixpoint canon (e : Expr) : poly :=
  match e with
  | Integer z => pconst z
  | Symbol s => [((0%nat, [(s, 1%nat)]), 1)]
  | Pi => [((1%nat, []), 1)]
  | Add a b => padd (canon a) (canon b)
  | Mul a b => pmul (canon a) (canon b)
  | Pow b n => ppow (canon b) n
  end.

(** Two expressions are the same SymPy object when their canonical forms
    agree. *)
Definition same (a b : Expr) : Prop := canon a = canon b.

(** The expression tree of a canonical form. *)
Definition expr_of_var (v : string * nat) : Expr :=
  match snd v with
  | 1%nat => Symbol (fst v)
  | k => Pow (Symbol (fst v)) k
  end.

Definition expr_of_pi (k : nat) : list Expr :=
  match k with
  | O => []
  | 1%nat => [Pi]
  | _ => [Pow Pi k]
  end.

Definition product (l : list Expr) : option Expr :=
  match l with
  | [] => None
  | a :: r => Some (fold_left Mul r a)
  end.

Definition expr_of_term (t : term) : Expr :=
  let '((k, v), c) := t in
  match product (expr_of_pi k ++ map expr_of_var v)%list with
  | None => Integer c
  | Some m => if c =? 1 then m else Mul (Integer c) m
  end.

Definition expr_of_poly (p : poly) : Expr :=
  match p with
  | [] => Integer 0
  | t :: r => fold_left (fun acc t' => Add acc (expr_of_term t')) r (expr_of_term t)
  end.

(** *** [sym.diff] and [sym.simplify] *)

(** Symbolic differentiation with respect to a symbol: sum, product and
    power (chain) rules. *)
Fixpoint diff (e : Expr) (x : string) : Expr :=
  match e with
  | Integer _ => Integer 0
  | Symbol s => if String.eqb s x then Integer 1 else Integer 0
  | Pi => Integer 0
  | Add a b => Add (diff a x) (diff b x)
  | Mul a b => Add (Mul (diff a x) b) (Mul a (diff b x))
  | Pow b n =>
      match n with
      | O => Integer 0
      | S k => Mul (Mul (Integer (Z.of_nat n)) (Pow b k)) (diff b x)
      end
  end.

(** SymPy's [simplify] returns the simplest form it finds, which can be
    a factored one.  The model returns the collected sum of monomials: a
    form with the same value at every point, and the form that SymPy
    returns for the notebook's [f]. *)
Definition simplify (e : Expr) : Expr := expr_of_poly (canon e).

(** *** [sym.printing.ccode] *)

(** One factor: the printed name as it is, a power with C's [pow]. *)
Definition print_factor (name : string) (k : nat) : string :=
  match k with
  | 1%nat => name
  | _ => "pow(" ++ name ++ ", " ++ Str.of_nat k ++ ")"
  end.

(** The reserved words of C that the printer knows: a symbol with such a
    name is printed with the suffix [_]; every other symbol is printed
    under its name. *)
Definition reserved_words : list string :=
  [ "auto"; "break"; "case"; "char"; "const"; "continue"; "default"; "do";
    "double"; "else"; "enum"; "extern"; "float"; "for"; "goto"; "if"; "int";
    "long"; "register"; "return"; "short"; "signed"; "sizeof"; "static";
    "struct"; "entry"; "switch"; "typedef"; "union"; "unsigned"; "void";
    "volatile"; "while"; "inline"; "restrict" ].

Definition is_reserved (name : string) : bool :=
  existsb (String.eqb name) reserved_words.

Definition print_symbol (name : string) : string :=
  if is_reserved name then name ++ "_" else name.

Definition print_factors (m : mono) : list string :=
  (match fst m with
   | O => []
   | k => [print_factor "M_PI" k]
   end ++ map (fun v => print_factor (print_symbol (fst v)) (snd v)) (snd m))%list.

(** A term without its sign. *)
Definition print_abs_term (t : term) : string :=
  let a := Z.abs (snd t) in
  match print_factors (fst t) with
  | [] => Str.of_Z a
  | fs => if a =? 1 then String.concat "*" fs
          else String.concat "*" (Str.of_Z a :: fs)
  end.

Definition print_rest (t : term) : string :=
  (if snd t <? 0 then " - " else " + ") ++ print_abs_term t.

Definition print_poly (p : poly) : string :=
  match p with
  | [] => "0"
  | t :: r =>
      (if snd t <? 0 then "-" else "") ++ print_abs_term t
      ++ String.concat "" (map print_rest r)
  end.

(** The code of an expression is the code of its canonical form.  SymPy
    prints a power or a product of sums as it stands and has rules of its
    own for the order of some sums; on the notebook's [u] and [f], and on
    expressions of their shape, the string is SymPy's.  The other
    statements below are about the names, [M_PI] and the brackets in the
    string, which do not depend on the order or the grouping of the
    terms. *)
Definition ccode (e : Expr) : string := print_poly (canon e).


(** The names of the symbols of an expression and of a canonical form,
    and whether pi is in a canonical form. *)
Fixpoint names (e : Expr) : list string :=
  match e with
  | Integer _ => []
  | Symbol s => [s]
  | Pi => []
  | Add a b => names a ++ names b
  | Mul a b => names a ++ names b
  | Pow b _ => names b
  end%list.



Definition has_pi (p : poly) : bool :=
  existsb (fun t => negb (fst (fst t) =? 0)%nat) p.


End sym.

(** ** The value of an expression at a point

    The symbols stand for real numbers: an expression is a function of
    the values of its symbols, and so is a canonical form. *)

Module Value.
Import sym.
Local Open Scope R_scope.

Definition point := string -> R.

Fixpoint eval (rho : point) (e : Expr) : R :=
  match e with
  | Integer z => IZR z
  | Symbol s => rho s
  | Pi => PI
  | Add a b => eval rho a + eval rho b
  | Mul a b => eval rho a * eval rho b
  | Pow b n => eval rho b ^ n
  end.

Fixpoint veval (rho : point) (v : vars) : R :=
  match v with
  | [] => 1
  | (s, k) :: r => rho s ^ k * veval rho r
  end.

Definition meval (rho : point) (m : mono) : R := PI ^ fst m * veval rho (snd m).

Definition teval (rho : point) (t : term) : R := IZR (snd t) * meval rho (fst t).

Fixpoint peval (rho : point) (p : poly) : R :=
  match p with
  | [] => 0
  | t :: r => teval rho t + peval rho r
  end.

Definition Rprod (l : list R) : R := fold_right Rmult 1 l.

(** The point [rho] with the symbol [x] moved to [t]. *)
Definition move (rho : point) (x : string) (t : R) : point :=
  fun s => if String.eqb s x then t else rho s.

(** The point of the unit square with the coordinates [a] and [b]. *)
Definition at_xy (a b : R) : point :=
  fun s => if String.eqb s "x[0]" then a
           else if String.eqb s "x[1]" then b else 0.

End Value.

(** ** Python values that are shared by the libraries *)

(** The exceptions that can end a cell. *)
Inductive Exception : Type :=
| ValueError      (* NumPy: shapes do not broadcast, maximum of nothing *)
| IndexError      (* an index past the end of an array *)
| RuntimeError.   (* FEniCS: the Newton solver did not converge *)

(** Objects that Python can add and raise to an integer power.  [q] is
    applied to a SymPy expression in one cell and to a FEniCS function in
    another. *)
Class PyNumber (A : Type) : Type := {
  py_int : Z -> A;
  py_add : A -> A -> A;
  py_pow : A -> nat -> A
}.

#[global] Instance PyNumber_Expr : PyNumber sym.Expr := {
  py_int := sym.Integer;
  py_add := sym.Add;
  py_pow := sym.Pow
}.

(** ** The NumPy fragment: one-dimensional arrays *)

Module np.
Section Arrays.

(** The entries are floating-point numbers.  The notebook only subtracts
    and compares them: the model keeps the type of the entries, the
    subtraction and the comparison abstract. *)
Variable T : Type.
Variable sub : T -> T -> T.
Variable leb : T -> T -> bool.

Fixpoint zip_with (g : T -> T -> T) (a b : list T) : list T :=
  match a, b with
  | x :: a', y :: b' => g x y :: zip_with g a' b'
  | _, _ => []
  end.

(** [a - b]: entry by entry when the shapes are equal; an array with one
    entry is broadcast against the other; any other pair of shapes is a
    [ValueError]. *)
Definition subtract (a b : list T) : Exception + list T :=
  if (List.length a =? List.length b)%nat then inr (zip_with sub a b)
  else match a, b with
       | [x], _ => inr (map (fun y => sub x y) b)
       | _, [y] => inr (map (fun x => sub x y) a)
       | _, _ => inl ValueError
       end.

Definition maximum (x y : T) : T := if leb x y then y else x.

(** [np.max(a)]: a [ValueError] for an array with no entry. *)
Definition max (a : list T) : Exception + T :=
  match a with
  | [] => inl ValueError
  | x :: r => inr (fold_left maximum r x)
  end.

(** [a[i]] for an index that is not negative. *)
Definition item (a : list T) (i : nat) : Exception + T :=
  match nth_error a i with
  | Some x => inr x
  | None => inl IndexError
  end.

(** [np.broadcast_to(a, n)]: an array with one entry stretched to [n]
    entries; the shape that [subtract] gives it against a longer array. *)
Definition broadcast_to (a : list T) (n : nat) : list T :=
  match a with
  | [x] => repeat x n
  | _ => a
  end.

End Arrays.
Arguments broadcast_to {T} a n.
Arguments zip_with {T} g a b.
Arguments subtract {T} sub a b.
Arguments maximum {T} leb x y.
Arguments max {T} leb a.
Arguments item {T} a i.
End np.

(** ** The FEniCS interface *)

Module fenics.

(** [Expression(cppcode, degree=...)]: the code string is kept as it is
    given and compiled by FEniCS. *)
Record Expression : Type := { cppcode : string; degree : Z }.

(** The integrands of a variational form, as far as the notebook writes
    them. *)
Inductive UFL : Type :=
| IntValue (z : Z)
| Unknown                     (* the [Function] that is solved for *)
| TestFunction                (* [v] *)
| Coefficient (e : Expression)
| Sum (a b : UFL)
| Product (a b : UFL)
| Power (a : UFL) (n : nat)
| grad (a : UFL)
| dot (a b : UFL).

Inductive Form : Type :=
| dx (integrand : UFL)            (* [integrand*dx] *)
| FormSub (a b : Form).

#[global] Instance PyNumber_UFL : PyNumber UFL := {
  py_int := IntValue;
  py_add := Sum;
  py_pow := Power
}.

(** [solver_parameters]: a dictionary of dictionaries of numbers. *)
Definition Parameters := list (string * list (string * QArith_base.Q)).

(** What the notebook asks of FEniCS.  [T] is the type of floating-point
    numbers. *)
Record Interface (T : Type) : Type := {
  Mesh : Type;
  FunctionSpaceT : Type;
  FunctionT : Type;
  UnitSquareMesh : Z -> Z -> Mesh;
  FunctionSpace : Mesh -> string -> Z -> FunctionSpaceT;
  Function : FunctionSpaceT -> FunctionT;
  mesh_of : FunctionSpaceT -> Mesh;                 (* [V.mesh()] *)
  coordinates : Mesh -> list (T * T);
  interpolate : Expression -> FunctionSpaceT -> FunctionT;
  compute_vertex_values : FunctionT -> list T;
  (** [solve(F == 0, u, bc, solver_parameters=...)]: Newton's method from
      the current value of [u]; the result is the value of [u] when the
      iteration stops, and the exception if it did not converge. *)
  solve : Form -> FunctionT ->
          FunctionSpaceT * Expression * (T * T -> bool -> bool) ->
          Parameters -> FunctionT * (Exception + unit)
}.

End fenics.

(** ** The notebook *)

Declare Scope python_scope.
Delimit Scope python_scope with python.
Notation "a + b" := (py_add a b) : python_scope.
Notation "a ** n" := (py_pow a n) (at level 30, right associativity) : python_scope.

(** Return nonlinear coefficient *)
Definition q {A : Type} `{PyNumber A} (u : A) : A := (py_int 1 + u ** 2)%python.

(** What [print] receives: one line for each call, the arguments as they
    are.  The [%] operator is kept with its format and its arguments. *)
Inductive Num (T : Type) : Type :=
| AInt (i : Z)
| AFloat (v : T).
Arguments AInt {T} i.
Arguments AFloat {T} v.

Inductive PyVal (T : Type) : Type :=
| VStr (s : string)
| VFloat (v : T)
| VFormat (fmt : string) (args : list (Num T)).
Arguments VStr {T} s.
Arguments VFloat {T} v.
Arguments VFormat {T} fmt args.

(** *** The cells that use SymPy *)

Module Symbolic.
Import sym.

(** A symbol is given by its name: [x, y = sym.symbols('x[0], x[1]')]. *)
Definition x : string := "x[0]".
Definition y : string := "x[1]".
Coercion Symbol : string >-> Expr.

Definition u : Expr := (1 + x + 2 * y)%py.

Definition f : Expr :=
  let f := (- diff (q u * diff u x) x - diff (q u * diff u y) y)%py in
  simplify f.

Definition u_code : string := ccode u.
Definition f_code : string := ccode f.

(** [print('u =', u_code)] and [print('f =', f_code)]. *)
Definition printed {T : Type} : list (list (PyVal T)) :=
  [ [VStr "u ="; VStr u_code]; [VStr "f ="; VStr f_code] ].

End Symbolic.

(** *** The cells that use FEniCS and NumPy *)

Definition boundary {P : Type} (x : P) (on_boundary : bool) : bool :=
  on_boundary.

Section Notebook.

Variable T : Type.
Variable sub : T -> T -> T.
Variable leb : T -> T -> bool.
Variable fe : fenics.Interface T.

Definition BC : Type :=
  (fenics.FunctionSpaceT T fe * fenics.Expression * (T * T -> bool -> bool))%type.
Definition Call : Type :=
  (fenics.Form * fenics.FunctionT T fe * BC * fenics.Parameters)%type.

(** The global variables that the cells assign and read, what has been
    printed, and the calls of the solver so far. *)
Record World : Type := {
  n : Z;
  mesh : fenics.Mesh T fe;
  V : fenics.FunctionSpaceT T fe;
  u : fenics.FunctionT T fe;
  stdout : list (list (PyVal T));
  solves : list Call
}.

(** A cell runs in the world and may end with an exception; what it did
    before stays done. *)
Definition M (A : Type) : Type := World -> World * (Exception + A).

Definition ret {A : Type} (a : A) : M A := fun w => (w, inr a).

Definition bind {A B : Type} (c : M A) (k : A -> M B) : M B :=
  fun w => match c w with
           | (w', inr a) => k a w'
           | (w', inl e) => (w', inl e)
           end.

Definition lift {A : Type} (r : Exception + A) : M A := fun w => (w, r).

Notation "x <- c ;; k" := (bind c (fun x => k))
  (at level 61, c at next level, right associativity).
Notation "c ;; k" := (bind c (fun _ => k))
  (at level 61, right associativity).

(** The world after some more lines have been printed. *)
Definition emit (w : World) (lines : list (list (PyVal T))) : World :=
  {| n := n w; mesh := mesh w; V := V w; u := u w;
     stdout := stdout w ++ lines; solves := solves w |}.

Definition print (args : list (PyVal T)) : M unit :=
  fun w => (emit w [args], inr tt).

(** [n = 16; mesh = UnitSquareMesh(8, 8); V = FunctionSpace(mesh, 'P', 1);
    u = Function(V)], after the cells that print the two code strings.
    The value given to [n] is an argument here. *)
Definition cell_mesh (n0 : Z) : World :=
  let n := n0 in
  let mesh := fenics.UnitSquareMesh T fe 8 8 in
  let V := fenics.FunctionSpace T fe mesh "P" 1 in
  let u := fenics.Function T fe V in
  {| n := n; mesh := mesh; V := V; u := u;
     stdout := Symbolic.printed; solves := [] |}.

Definition u_D : fenics.Expression :=
  {| fenics.cppcode := Symbolic.u_code; fenics.degree := 1 |}.

(** [bc = DirichletBC(V, u_D, boundary)] *)
Definition bc (w : World) : BC := (V w, u_D, boundary).

Definition f : fenics.Expression :=
  {| fenics.cppcode := Symbolic.f_code; fenics.degree := 1 |}.

(** [F = q(u)*dot(grad(u), grad(v))*dx - f*v*dx] *)
Definition F : fenics.Form :=
  let u := fenics.Unknown in
  let v := fenics.TestFunction in
  fenics.FormSub
    (fenics.dx (fenics.Product (q u) (fenics.dot (fenics.grad u) (fenics.grad v))))
    (fenics.dx (fenics.Product (fenics.Coefficient f) v)).

(** [solve(F == 0, u, bc, solver_parameters=...)]: [u] is updated in
    place. *)
Definition solve (solver_parameters : fenics.Parameters) : M unit :=
  fun w =>
    let r := fenics.solve T fe F (u w) (bc w) solver_parameters in
    ({| n := n w; mesh := mesh w; V := V w; u := fst r;
        stdout := stdout w;
        solves := solves w ++ [(F, u w, bc w, solver_parameters)] |},
     snd r).

Definition print_max_error : M unit :=
  fun w =>
    let u_e := fenics.interpolate T fe u_D (V w) in
    let u0_at_vertices := fenics.compute_vertex_values T fe u_e in
    let u_at_vertices := fenics.compute_vertex_values T fe (u w) in
    let coor := fenics.coordinates T fe (fenics.mesh_of T fe (V w)) in
    (d <- lift (np.subtract sub u0_at_vertices u_at_vertices) ;;
     m <- lift (np.max leb d) ;;
     print [VStr "Max error is: "; VFloat m]) w.

(** The loop [for i, x in enumerate(coor)] of [print_errors], from
    index [i]. *)
Fixpoint print_errors_from (i : nat) (coor : list (T * T))
    (u0_at_vertices u_at_vertices : list T) : M unit :=
  match coor with
  | [] => ret tt
  | x :: rest =>
      a <- lift (np.item u0_at_vertices i) ;;
      b <- lift (np.item u_at_vertices i) ;;
      print [VFormat "vertex %2d (%9g,%9g): error=%g"
               [AInt (Z.of_nat i); AFloat (fst x); AFloat (snd x);
                AFloat (sub a b)]] ;;
      print_errors_from (S i) rest u0_at_vertices u_at_vertices
  end.

Definition print_errors : M unit :=
  fun w =>
    let u_e := fenics.interpolate T fe u_D (V w) in
    let u0_at_vertices := fenics.compute_vertex_values T fe u_e in
    let u_at_vertices := fenics.compute_vertex_values T fe (u w) in
    let coor := fenics.coordinates T fe (fenics.mesh_of T fe (V w)) in
    print_errors_from 0 coor u0_at_vertices u_at_vertices w.

(** The cells in order: the first solve and its error, then the solve
    with the Newton tolerance set and its error. *)
Definition cells : M unit :=
  solve [] ;;
  print_max_error ;;
  solve [("newton_solver", [("relative_tolerance", QArith_base.Qmake 1 1000000)])] ;;
  print_max_error.

Definition notebook (n0 : Z) : World * (Exception + unit) :=
  cells (cell_mesh n0).

(** What the error evaluator samples in a world: the vertex values of
    the interpolated exact solution and of the computed solution, the
    coordinates of the vertices, and the differences vertex by vertex. *)
Definition exact_values (w : World) : list T :=
  fenics.compute_vertex_values T fe (fenics.interpolate T fe u_D (V w)).

Definition computed_values (w : World) : list T :=
  fenics.compute_vertex_values T fe (u w).

Definition vertices (w : World) : list (T * T) :=
  fenics.coordinates T fe (fenics.mesh_of T fe (V w)).

Definition differences (w : World) : list T :=
  np.zip_with sub (exact_values w) (computed_values w).

(** The line of [print_errors] for vertex [i]. *)
Definition error_line (i : nat) (x : T * T) (d : T) : list (PyVal T) :=
  [VFormat "vertex %2d (%9g,%9g): error=%g"
     [AInt (Z.of_nat i); AFloat (fst x); AFloat (snd x); AFloat d]].

Fixpoint error_table (i : nat) (coor : list (T * T)) (ds : list T) :
    list (list (PyVal T)) :=
  match coor, ds with
  | x :: coor', d :: ds' => error_line i x d :: error_table (S i) coor' ds'
  | _, _ => []
  end.

(** The differences when one of the two samples has a single entry. *)
Definition broadcast_differences (w : World) : list T :=
  let k := Nat.max (List.length (exact_values w))
                   (List.length (computed_values w)) in
  np.zip_with sub (np.broadcast_to (exact_values w) k)
                  (np.broadcast_to (computed_values w) k).

(** The solver's parameters of the second call, and what the two calls
    of the solver return: the second starts from the function that the
    first has left in [u]. *)
Definition tolerance_parameters : fenics.Parameters :=
  [("newton_solver", [("relative_tolerance", QArith_base.Qmake 1 1000000)])].

Definition first_solve (n0 : Z) :
    fenics.FunctionT T fe * (Exception + unit) :=
  fenics.solve T fe F (u (cell_mesh n0)) (bc (cell_mesh n0)) [].

Definition second_solve (n0 : Z) :
    fenics.FunctionT T fe * (Exception + unit) :=
  fenics.solve T fe F (fst (first_solve n0)) (bc (cell_mesh n0))
    tolerance_parameters.

(** The world with another value of [n]. *)
Definition with_n (n0 : Z) (w : World) : World :=
  {| n := n0; mesh := mesh w; V := V w; u := u w;
     stdout := stdout w; solves := solves w |}.

(** A cell that does not read [n] and does not assign it. *)
Definition ignores_n {A : Type} (c : M A) : Prop :=
  forall (k : Z) (w : World),
    c (with_n k w) = (with_n k (fst (c w)), snd (c w)).

(** A cell that assigns none of [n], [mesh] and [V]. *)
Definition keeps_mesh {A : Type} (c : M A) : Prop :=
  forall w : World,
    n (fst (c w)) = n w /\ mesh (fst (c w)) = mesh w /\ V (fst (c w)) = V w.

End Notebook.
Arguments ignores_n {T fe A} c.
Arguments keeps_mesh {T fe A} c.

(** A small instance of the interface, to run the cells on concrete
    data: a function is the list of its vertex values, interpolation
    returns [exact], a fresh function has the values [computed] and the
    solver leaves the function as it is. *)
Definition sampled (exact computed : list Z) (coor : list (Z * Z)) :
    fenics.Interface Z :=
  {| fenics.Mesh := (Z * Z)%type;
     fenics.FunctionSpaceT := (Z * Z * Z)%type;
     fenics.FunctionT := list Z;
     fenics.UnitSquareMesh := fun nx ny => (nx, ny);
     fenics.FunctionSpace := fun m _ d => (m, d);
     fenics.Function := fun _ => computed;
     fenics.mesh_of := fst;
     fenics.coordinates := fun _ => coor;
     fenics.interpolate := fun _ _ => exact;
     fenics.compute_vertex_values := fun v => v;
     fenics.solve := fun _ u _ _ => (u, inr tt) |}.

(** The same instance with a solver that does not converge: it leaves
    the values [iterate] in the function and raises. *)
Definition stalled (exact computed iterate : list Z) (coor : list (Z * Z)) :
    fenics.Interface Z :=
  {| fenics.Mesh := (Z * Z)%type;
     fenics.FunctionSpaceT := (Z * Z * Z)%type;
     fenics.FunctionT := list Z;
     fenics.UnitSquareMesh := fun nx ny => (nx, ny);
     fenics.FunctionSpace := fun m _ d => (m, d);
     fenics.Function := fun _ => computed;
     fenics.mesh_of := fst;
     fenics.coordinates := fun _ => coor;
     fenics.interpolate := fun _ _ => exact;
     fenics.compute_vertex_values := fun v => v;
     fenics.solve := fun _ _ _ _ => (iterate, inl RuntimeError) |}.

(** The world after the mesh cell on that instance. *)
Definition sampled_world (exact computed : list Z) (coor : list (Z * Z)) :
    World Z (sampled exact computed coor) :=
  cell_mesh Z (sampled exact computed coor) 16.

(** * Properties *)

(** ** Strings *)

Module StrFacts.
Import Str.

Lemma append_assoc (a b c : string) : (a ++ b) ++ c = a ++ b ++ c.
Proof. induction a as [|ch a IH]; simpl; [reflexivity | now rewrite IH]. Qed.

Lemma append_nil_r (a : string) : a ++ "" = a.
Proof. induction a as [|ch a IH]; simpl; [reflexivity | now rewrite IH]. Qed.

Lemma startswith_iff (s t : string) :
  startswith t s = true <-> exists r, t = s ++ r.
Proof.
  revert t; induction s as [|c s IH]; intros t; simpl.
  - split; [intros _; now exists t | destruct t; reflexivity].
  - destruct t as [|d t].
    + split; [discriminate | intros [r Hr]; discriminate].
    + rewrite andb_true_iff, Ascii.eqb_eq, IH. split.
      * intros [-> [r ->]]. now exists r.
      * intros [r Hr]. injection Hr; intros -> ->. split; [reflexivity | now exists r].
Qed.

Lemma contains_iff (s t : string) : contains s t = true <-> occurs_in s t.
Proof.
  induction t as [|d t IH]; simpl; rewrite orb_true_iff, startswith_iff.
  - split.
    + intros [[r Hr]|H]; [|discriminate]. exists "", r. exact Hr.
    + intros [p [r H]]. left. destruct p; [now exists r | discriminate].
  - rewrite IH. split.
    + intros [[r Hr]|[p [r H]]].
      * exists "", r. exact Hr.
      * exists (String d p), r. simpl. now rewrite H.
    + intros [p [r H]]. destruct p as [|c p].
      * left. now exists r.
      * right. injection H; intros H' _. now exists p, r.
Qed.

Lemma occurs_refl (s : string) : occurs_in s s.
Proof. exists "", "". simpl. now rewrite append_nil_r. Qed.

Lemma occurs_app_l (s a b : string) : occurs_in s a -> occurs_in s (a ++ b).
Proof.
  intros [p [r ->]]. exists p, (r ++ b). now rewrite !append_assoc.
Qed.

Lemma occurs_app_r (s a b : string) : occurs_in s b -> occurs_in s (a ++ b).
Proof.
  intros [p [r ->]]. exists (a ++ p), r. now rewrite !append_assoc.
Qed.



End StrFacts.

(** ** The boundary *)

(** C7, as the claim states it, fails: off the boundary the function
    answers [False]. *)
Lemma boundary_false_off_boundary : boundary (0, 0) false = false.
Proof. reflexivity. Qed.

(** C7, amended.  For every point and every value of the flag, [boundary]
    returns the flag: the Dirichlet condition applies exactly where
    FEniCS says the point is on the boundary, whatever the point. *)
Theorem boundary_is_flag (P : Type) (p : P) (on_boundary : bool) :
  boundary p on_boundary = on_boundary.
Proof. reflexivity. Qed.

(** ** Arrays *)

Module npFacts.
Section Facts.

Variable T : Type.
Variable sub : T -> T -> T.
Variable leb : T -> T -> bool.

Lemma zip_with_length (g : T -> T -> T) (a b : list T) :
  List.length a = List.length b ->
  List.length (np.zip_with g a b) = List.length a.
Proof.
  revert b; induction a as [|x a IH]; intros [|y b]; simpl; try discriminate.
  - reflexivity.
  - intros H. injection H as H. now rewrite IH.
Qed.

Lemma zip_with_nth (g : T -> T -> T) (a b : list T) (i : nat) (x y : T) :
  nth_error a i = Some x -> nth_error b i = Some y ->
  nth_error (np.zip_with g a b) i = Some (g x y).
Proof.
  revert b i; induction a as [|x' a IH]; intros [|y' b] [|i]; simpl;
    try discriminate.
  - intros [= ->] [= ->]. reflexivity.
  - apply IH.
Qed.

Lemma subtract_same_length (a b : list T) :
  List.length a = List.length b ->
  np.subtract sub a b = inr (np.zip_with sub a b).
Proof.
  intros H. unfold np.subtract. now rewrite H, Nat.eqb_refl.
Qed.

Lemma subtract_mismatch (a b : list T) :
  List.length a <> List.length b ->
  List.length a <> 1%nat -> List.length b <> 1%nat ->
  np.subtract sub a b = inl ValueError.
Proof.
  intros Hab Ha Hb. unfold np.subtract.
  destruct (Nat.eqb_spec (List.length a) (List.length b)) as [E|_];
    [contradiction|].
  destruct a as [|x [|x' a]]; destruct b as [|y [|y' b]]; simpl in *;
    try reflexivity; contradiction.
Qed.

Hypothesis leb_total : forall a b, leb a b = true \/ leb b a = true.
Hypothesis leb_trans :
  forall a b c, leb a b = true -> leb b c = true -> leb a c = true.

Lemma maximum_cases (x y : T) :
  (np.maximum leb x y = x \/ np.maximum leb x y = y)
  /\ leb x (np.maximum leb x y) = true
  /\ leb y (np.maximum leb x y) = true.
Proof.
  unfold np.maximum. destruct (leb x y) eqn:E.
  - repeat split; auto. destruct (leb_total y y); assumption.
  - repeat split; auto.
    + destruct (leb_total x x); assumption.
    + destruct (leb_total x y) as [H|H]; [congruence | exact H].
Qed.

(** The fold of [np.max] returns an entry that no entry exceeds. *)
Lemma fold_maximum (r : list T) (x : T) :
  In (fold_left (np.maximum leb) r x) (x :: r)
  /\ forall d, In d (x :: r) -> leb d (fold_left (np.maximum leb) r x) = true.
Proof.
  revert x; induction r as [|y r IH]; intros x; simpl.
  - split; [now left|]. intros d [<-|[]]. destruct (leb_total x x); assumption.
  - destruct (IH (np.maximum leb x y)) as [Hin Hle].
    destruct (maximum_cases x y) as [Hc [Hx Hy]].
    split.
    + destruct Hin as [Hin|Hin]; [|now right; right].
      destruct Hc as [Hc|Hc]; [left | right; left];
        (transitivity (np.maximum leb x y); [now symmetry | exact Hin]).
    + intros d [<-|[<-|Hd]].
      * apply leb_trans with (np.maximum leb x y); [exact Hx|]. apply Hle. now left.
      * apply leb_trans with (np.maximum leb x y); [exact Hy|]. apply Hle. now left.
      * apply Hle. now right.
Qed.

Lemma max_spec (a : list T) :
  a <> [] ->
  exists m, np.max leb a = inr m /\ In m a
            /\ forall d, In d a -> leb d m = true.
Proof.
  destruct a as [|x r]; [congruence|]. intros _.
  exists (fold_left (np.maximum leb) r x). split; [reflexivity|].
  apply fold_maximum.
Qed.

End Facts.
End npFacts.

(** ** The error evaluator *)

Section ErrorEvaluator.

Variable T : Type.
Variable sub : T -> T -> T.
Variable leb : T -> T -> bool.
Variable fe : fenics.Interface T.

Lemma emit_emit (w : World T fe) (l1 l2 : list (list (PyVal T))) :
  emit T fe (emit T fe w l1) l2 = emit T fe w (l1 ++ l2).
Proof. unfold emit; simpl. now rewrite <- app_assoc. Qed.

Lemma emit_nil (w : World T fe) : emit T fe w [] = w.
Proof. destruct w; unfold emit; simpl. now rewrite app_nil_r. Qed.

(** The loop of [print_errors] prints the table when the arrays are long
    enough for the indices it uses. *)
Lemma print_errors_from_table (coor : list (T * T)) (u0 u1 : list T) :
  forall (i : nat) (w : World T fe),
    (i + List.length coor <= List.length u0)%nat ->
    (i + List.length coor <= List.length u1)%nat ->
    print_errors_from T sub fe i coor u0 u1 w
    = (emit T fe w (error_table T i coor (skipn i (np.zip_with sub u0 u1))),
       inr tt).
Proof.
  induction coor as [|x coor IH]; intros i w H0 H1; simpl.
  - unfold ret. now rewrite emit_nil.
  - simpl in H0, H1.
    destruct (nth_error u0 i) as [a|] eqn:Ea;
      [|apply nth_error_None in Ea; lia].
    destruct (nth_error u1 i) as [b|] eqn:Eb;
      [|apply nth_error_None in Eb; lia].
    pose proof (npFacts.zip_with_nth T sub u0 u1 i a b Ea Eb) as Ez.
    unfold bind, lift, np.item. rewrite Ea, Eb. unfold print at 1.
    rewrite IH by lia. rewrite emit_emit.
    assert (Hs : skipn i (np.zip_with sub u0 u1)
                 = sub a b :: skipn (S i) (np.zip_with sub u0 u1)).
    { clear -Ez. revert Ez. generalize (np.zip_with sub u0 u1) as l.
      induction i as [|i IHi]; intros [|z l]; simpl; try discriminate.
      - now intros [= ->].
      - apply IHi. }
    rewrite Hs. reflexivity.
Qed.

(** C5, amended.  The error evaluator has no check of its own and no
    exception of its own.  When the two sequences of vertex values have
    different lengths and neither has length one, the subtraction of the
    arrays raises [ValueError]: nothing is printed and no number is
    returned. *)
Theorem print_max_error_shape_mismatch (w : World T fe) :
  List.length (exact_values T fe w) <> List.length (computed_values T fe w) ->
  List.length (exact_values T fe w) <> 1%nat ->
  List.length (computed_values T fe w) <> 1%nat ->
  print_max_error T sub leb fe w = (w, inl ValueError).
Proof.
  intros Hne H0 H1. unfold print_max_error, bind, lift.
  fold (exact_values T fe w). fold (computed_values T fe w).
  now rewrite (npFacts.subtract_mismatch T sub _ _ Hne H0 H1).
Qed.

Hypothesis leb_total : forall a b, leb a b = true \/ leb b a = true.
Hypothesis leb_trans :
  forall a b c, leb a b = true -> leb b c = true -> leb a c = true.

(** C6.  Given samples of equal length of the interpolated exact
    solution and of the computed solution, the error evaluator prints one
    line with the maximum over the vertices of the difference, exact
    value minus computed value; [print_errors] prints the table of the
    vertices with their coordinates and differences; neither changes
    anything but what is printed. *)
Theorem error_evaluator_reports (w : World T fe) :
  List.length (exact_values T fe w) = List.length (computed_values T fe w) ->
  List.length (vertices T fe w) = List.length (exact_values T fe w) ->
  exact_values T fe w <> [] ->
  (exists m,
      print_max_error T sub leb fe w
      = (emit T fe w [[VStr "Max error is: "; VFloat m]], inr tt)
      /\ In m (differences T sub fe w)
      /\ forall d, In d (differences T sub fe w) -> leb d m = true)
  /\ print_errors T sub fe w
     = (emit T fe w (error_table T 0 (vertices T fe w) (differences T sub fe w)),
        inr tt)
  /\ List.length (error_table T 0 (vertices T fe w) (differences T sub fe w))
     = List.length (vertices T fe w).
Proof.
  intros Hlen Hcoor Hne. split; [|split].
  - assert (Hd : differences T sub fe w <> []).
    { unfold differences. intros E.
      apply (f_equal (@List.length T)) in E.
      rewrite npFacts.zip_with_length in E by exact Hlen.
      destruct (exact_values T fe w); [congruence | discriminate]. }
    destruct (npFacts.max_spec T leb leb_total leb_trans _ Hd)
      as [m [Hm [Hin Hle]]].
    exists m. split; [|split; assumption].
    unfold print_max_error, bind, lift.
    fold (exact_values T fe w). fold (computed_values T fe w).
    rewrite (npFacts.subtract_same_length T sub _ _ Hlen).
    fold (differences T sub fe w). rewrite Hm. reflexivity.
  - unfold print_errors.
    fold (exact_values T fe w). fold (computed_values T fe w).
    fold (vertices T fe w).
    rewrite print_errors_from_table by (simpl; lia). reflexivity.
  - assert (Hl : List.length (differences T sub fe w)
                 = List.length (vertices T fe w)).
    { unfold differences. rewrite npFacts.zip_with_length by exact Hlen.
      now rewrite Hcoor. }
    revert Hl. generalize (differences T sub fe w) as ds.
    generalize (vertices T fe w) as coor. generalize 0%nat as i.
    intros i coor; revert i; induction coor as [|x coor IH];
      intros i [|d ds]; simpl; try discriminate; try reflexivity.
    intros [= H]. now rewrite IH.
Qed.

End ErrorEvaluator.

(** C5, as the claim states it, fails: an array with one entry is
    broadcast against an array with three, and the maximum of the three
    differences is printed. *)
Lemma print_max_error_broadcasts :
  List.length (exact_values Z _ (sampled_world [5] [1; 2; 3] [])) = 1%nat
  /\ List.length (computed_values Z _ (sampled_world [5] [1; 2; 3] [])) = 3%nat
  /\ print_max_error Z Z.sub Z.leb _ (sampled_world [5] [1; 2; 3] [])
     = (emit Z _ (sampled_world [5] [1; 2; 3] [])
          [[VStr "Max error is: "; VFloat 4]], inr tt).
Proof. repeat split. Qed.

(** With two values against three, the subtraction raises. *)
Lemma print_max_error_shape_mismatch_witness :
  print_max_error Z Z.sub Z.leb _ (sampled_world [1; 2] [1; 2; 3] [])
  = (sampled_world [1; 2] [1; 2; 3] [], inl ValueError).
Proof.
  apply (print_max_error_shape_mismatch Z Z.sub Z.leb
           (sampled [1; 2] [1; 2; 3] []));
    simpl; lia.
Defined.

Lemma Zleb_total (a b : Z) : (a <=? b) = true \/ (b <=? a) = true.
Proof. rewrite !Z.leb_le. lia. Qed.

Lemma Zleb_trans (a b c : Z) :
  (a <=? b) = true -> (b <=? c) = true -> (a <=? c) = true.
Proof. rewrite !Z.leb_le. lia. Qed.

(** Three vertices, the integers with their order as the numbers. *)
Lemma error_evaluator_reports_witness :
  (exists m,
      print_max_error Z Z.sub Z.leb _
        (sampled_world [3; 5; 4] [1; 1; 1] [(0, 0); (1, 0); (0, 1)])
      = (emit Z _ (sampled_world [3; 5; 4] [1; 1; 1] [(0, 0); (1, 0); (0, 1)])
           [[VStr "Max error is: "; VFloat m]], inr tt)
      /\ In m (differences Z Z.sub _
                 (sampled_world [3; 5; 4] [1; 1; 1] [(0, 0); (1, 0); (0, 1)]))
      /\ forall d,
          In d (differences Z Z.sub _
                  (sampled_world [3; 5; 4] [1; 1; 1] [(0, 0); (1, 0); (0, 1)])) ->
          (d <=? m) = true)
  /\ print_errors Z Z.sub _
       (sampled_world [3; 5; 4] [1; 1; 1] [(0, 0); (1, 0); (0, 1)])
     = (emit Z _ (sampled_world [3; 5; 4] [1; 1; 1] [(0, 0); (1, 0); (0, 1)])
          (error_table Z 0
             (vertices Z _ (sampled_world [3; 5; 4] [1; 1; 1] [(0, 0); (1, 0); (0, 1)]))
             (differences Z Z.sub _
                (sampled_world [3; 5; 4] [1; 1; 1] [(0, 0); (1, 0); (0, 1)]))),
        inr tt)
  /\ List.length
       (error_table Z 0
          (vertices Z _ (sampled_world [3; 5; 4] [1; 1; 1] [(0, 0); (1, 0); (0, 1)]))
          (differences Z Z.sub _
             (sampled_world [3; 5; 4] [1; 1; 1] [(0, 0); (1, 0); (0, 1)])))
     = List.length
         (vertices Z _ (sampled_world [3; 5; 4] [1; 1; 1] [(0, 0); (1, 0); (0, 1)])).
Proof.
  apply (error_evaluator_reports Z Z.sub Z.leb
           (sampled [3; 5; 4] [1; 1; 1] [(0, 0); (1, 0); (0, 1)])
           Zleb_total Zleb_trans);
    simpl; [reflexivity | reflexivity | discriminate].
Defined.

(** The run of the evaluator on that data: the maximum is [4], at the
    second vertex. *)
Example print_max_error_run :
  print_max_error Z Z.sub Z.leb _
    (sampled_world [3; 5; 4] [1; 1; 1] [(0, 0); (1, 0); (0, 1)])
  = (emit Z _ (sampled_world [3; 5; 4] [1; 1; 1] [(0, 0); (1, 0); (0, 1)])
       [[VStr "Max error is: "; VFloat 4]], inr tt).
Proof. reflexivity. Qed.

Example print_errors_run :
  stdout Z _
    (fst (print_errors Z Z.sub _
            (sampled_world [3; 5; 4] [1; 1; 1] [(0, 0); (1, 0); (0, 1)])))
  = (Symbolic.printed
     ++ [ [VFormat "vertex %2d (%9g,%9g): error=%g" [AInt 0; AFloat 0; AFloat 0; AFloat 2]];
          [VFormat "vertex %2d (%9g,%9g): error=%g" [AInt 1; AFloat 1; AFloat 0; AFloat 4]];
          [VFormat "vertex %2d (%9g,%9g): error=%g" [AInt 2; AFloat 0; AFloat 1; AFloat 3]] ])%list.
Proof. reflexivity. Qed.

(** A short array is an [IndexError] in [print_errors], after the lines
    of the vertices before it. *)
Example print_errors_short :
  print_errors Z Z.sub _ (sampled_world [3] [1] [(0, 0); (1, 0)])
  = (emit Z _ (sampled_world [3] [1] [(0, 0); (1, 0)])
       [[VFormat "vertex %2d (%9g,%9g): error=%g" [AInt 0; AFloat 0; AFloat 0; AFloat 2]]],
     inl IndexError).
Proof. reflexivity. Qed.

(** ** The variable [n] *)

Section UnusedVariable.

Variable T : Type.
Variable sub : T -> T -> T.
Variable leb : T -> T -> bool.
Variable fe : fenics.Interface T.

Lemma ignores_n_bind {A B : Type} (c : M T fe A) (k : A -> M T fe B) :
  ignores_n c -> (forall a, ignores_n (k a)) -> ignores_n (bind T fe c k).
Proof.
  intros Hc Hk z w. unfold bind. rewrite Hc.
  destruct (c w) as [w' [e|a]]; simpl; [reflexivity|]. rewrite Hk.
  now destruct (k a w').
Qed.

Lemma ignores_n_lift {A : Type} (r : Exception + A) : ignores_n (lift T fe r).
Proof. intros z w. reflexivity. Qed.

Lemma ignores_n_print (args : list (PyVal T)) : ignores_n (print T fe args).
Proof. intros z w. reflexivity. Qed.

Lemma ignores_n_solve (p : fenics.Parameters) : ignores_n (solve T fe p).
Proof. intros z w. reflexivity. Qed.

Lemma ignores_n_print_max_error : ignores_n (print_max_error T sub leb fe).
Proof.
  intros z w. unfold print_max_error; simpl.
  set (d := np.subtract sub _ _).
  apply (ignores_n_bind (lift T fe d)); [apply ignores_n_lift|].
  intros a. apply ignores_n_bind; [apply ignores_n_lift|].
  intros m. apply ignores_n_print.
Qed.

Lemma ignores_n_cells : ignores_n (cells T sub leb fe).
Proof.
  unfold cells.
  repeat (apply ignores_n_bind; [|intros _]);
    auto using ignores_n_solve, ignores_n_print_max_error.
Qed.

Lemma keeps_mesh_bind {A B : Type} (c : M T fe A) (k : A -> M T fe B) :
  keeps_mesh c -> (forall a, keeps_mesh (k a)) -> keeps_mesh (bind T fe c k).
Proof.
  intros Hc Hk w. unfold bind. specialize (Hc w).
  destruct (c w) as [w' [e|a]]; simpl in *; [exact Hc|].
  destruct (Hk a w') as [H1 [H2 H3]]. destruct Hc as [H4 [H5 H6]].
  repeat split; congruence.
Qed.

Lemma keeps_mesh_solve (p : fenics.Parameters) : keeps_mesh (solve T fe p).
Proof. intros w. repeat split. Qed.

Lemma keeps_mesh_print_max_error : keeps_mesh (print_max_error T sub leb fe).
Proof.
  intros w. unfold print_max_error, bind, lift.
  destruct (np.subtract sub _ _) as [e|d]; simpl; [repeat split|].
  destruct (np.max leb d); simpl; repeat split.
Qed.

Lemma keeps_mesh_cells : keeps_mesh (cells T sub leb fe).
Proof.
  unfold cells.
  repeat (apply keeps_mesh_bind; [|intros _]);
    auto using keeps_mesh_solve, keeps_mesh_print_max_error.
Qed.

Lemma notebook_with_n (n1 n2 : Z) :
  notebook T sub leb fe n1
  = (with_n T fe n1 (fst (notebook T sub leb fe n2)),
     snd (notebook T sub leb fe n2)).
Proof.
  unfold notebook.
  change (cell_mesh T fe n1) with (with_n T fe n1 (cell_mesh T fe n2)).
  apply ignores_n_cells.
Qed.

(** C9.  The variable [n] is assigned and never read.  Whatever its
    value, the mesh is [UnitSquareMesh(8, 8)], and the lines printed
    (the two code strings and the reported errors), the calls of the
    solver with their arguments, the computed solution and the exception
    that ends the run, if any, are the same. *)
Theorem n_is_never_read (n1 n2 : Z) :
  mesh T fe (fst (notebook T sub leb fe n1)) = fenics.UnitSquareMesh T fe 8 8
  /\ mesh T fe (fst (notebook T sub leb fe n1))
     = mesh T fe (fst (notebook T sub leb fe n2))
  /\ V T fe (fst (notebook T sub leb fe n1))
     = V T fe (fst (notebook T sub leb fe n2))
  /\ stdout T fe (fst (notebook T sub leb fe n1))
     = stdout T fe (fst (notebook T sub leb fe n2))
  /\ solves T fe (fst (notebook T sub leb fe n1))
     = solves T fe (fst (notebook T sub leb fe n2))
  /\ u T fe (fst (notebook T sub leb fe n1))
     = u T fe (fst (notebook T sub leb fe n2))
  /\ snd (notebook T sub leb fe n1) = snd (notebook T sub leb fe n2)
  /\ n T fe (fst (notebook T sub leb fe n1)) = n1.
Proof.
  assert (Hm : forall k, mesh T fe (fst (notebook T sub leb fe k))
                         = fenics.UnitSquareMesh T fe 8 8).
  { intros k. unfold notebook.
    destruct (keeps_mesh_cells (cell_mesh T fe k)) as [_ [-> _]]. reflexivity. }
  rewrite (notebook_with_n n1 n2). simpl.
  repeat split; try reflexivity.
  apply Hm.
Qed.

End UnusedVariable.

(** The notebook on the small instance, with its [n = 16]: two solves,
    the second with the tolerance, and two reports. *)
Example notebook_run :
  let r := notebook Z Z.sub Z.leb (sampled [1; 2; 4] [1; 2; 4] []) 16 in
  snd r = inr tt
  /\ stdout Z _ (fst r)
     = [ [VStr "u ="; VStr "x[0] + 2*x[1] + 1"];
         [VStr "f ="; VStr "-10*x[0] - 20*x[1] - 10"];
         [VStr "Max error is: "; VFloat 0];
         [VStr "Max error is: "; VFloat 0] ]
  /\ map snd (solves Z _ (fst r))
     = [ []; [("newton_solver", [("relative_tolerance", QArith_base.Qmake 1 1000000)])] ].
Proof. vm_compute. repeat split. Qed.

(** ** The code printer *)

Module PrinterFacts.
Import Str StrFacts sym.

Lemma occurs_concat (s sep x : string) (l : list string) :
  In x l -> occurs_in s x -> occurs_in s (String.concat sep l).
Proof.
  intros Hin Hs. induction l as [|y l IH]; [contradiction|].
  destruct l as [|z l].
  - destruct Hin as [->|[]]. exact Hs.
  - change (String.concat sep (y :: z :: l))
      with (y ++ sep ++ String.concat sep (z :: l)).
    destruct Hin as [->|Hin].
    + now apply occurs_app_l.
    + apply occurs_app_r, occurs_app_r. now apply IH.
Qed.





(** A factor shows the name as it is, and adds only characters of the
    printer. *)
Lemma occurs_print_factor (name : string) (k : nat) :
  occurs_in name (print_factor name k).
Proof.
  unfold print_factor. destruct k as [|[|k]];
    try (apply occurs_app_r, occurs_app_l, occurs_refl).
  apply occurs_refl.
Qed.






Lemma occurs_print_abs_term (s : string) (t : term) :
  In s (print_factors (fst t)) -> occurs_in s (print_abs_term t).
Proof.
  unfold print_abs_term. intros Hin.
  destruct (print_factors (fst t)) as [|x fs] eqn:E; [contradiction|].
  destruct (Z.abs (snd t) =? 1).
  - apply occurs_concat with (x := s); [exact Hin | apply occurs_refl].
  - apply occurs_concat with (x := s); [now right | apply occurs_refl].
Qed.

Lemma occurs_trans (a b c : string) :
  occurs_in a b -> occurs_in b c -> occurs_in a c.
Proof.
  intros [p [r ->]] [p' [r' ->]]. exists (p' ++ p), (r ++ r').
  now rewrite !append_assoc.
Qed.

(** A piece of one term is a piece of the printed sum. *)
Lemma occurs_print_poly (s : string) (p : poly) (t : term) :
  In t p -> occurs_in s (print_abs_term t) -> occurs_in s (print_poly p).
Proof.
  destruct p as [|t0 r]; [contradiction|]. intros [->|Hin] Hs; unfold print_poly.
  - apply occurs_app_r, occurs_app_l. exact Hs.
  - apply occurs_app_r, occurs_app_r.
    apply occurs_concat with (x := print_rest t).
    + now apply in_map.
    + unfold print_rest. now apply occurs_app_r.
Qed.


End PrinterFacts.

(** ** Canonical forms introduce no name *)

Module CanonFacts.
Import sym.

Lemma vmul_cons (a b : string) (i j : nat) (r1 r2 : vars) :
  vmul ((a, i) :: r1) ((b, j) :: r2)
  = match String.compare a b with
    | Eq => (a, (i + j)%nat) :: vmul r1 r2
    | Lt => (a, i) :: vmul r1 ((b, j) :: r2)
    | Gt => (b, j) :: vmul ((a, i) :: r1) r2
    end.
Proof. reflexivity. Qed.

Lemma vmul_nil_r (v : vars) : vmul v [] = v.
Proof. destruct v as [|[a i] r]; reflexivity. Qed.










End CanonFacts.

(** ** The canonical form and the derivative are the right ones *)

Module ValueFacts.
Import sym Value CanonFacts.
Local Open Scope R_scope.

Lemma vcmp_eq (v1 v2 : vars) : vcmp v1 v2 = Eq -> v1 = v2.
Proof.
  revert v2; induction v1 as [|[a i] r1 IH]; intros [|[b j] r2]; simpl;
    try discriminate; [reflexivity|].
  destruct (String.compare a b) eqn:E; try discriminate.
  destruct (Nat.compare i j) eqn:En; try discriminate.
  intros H. apply String.compare_eq_iff in E. apply Nat.compare_eq in En.
  rewrite (IH _ H). congruence.
Qed.

Lemma mcmp_eq (m1 m2 : mono) : mcmp m1 m2 = Eq -> m1 = m2.
Proof.
  destruct m1 as [k1 v1], m2 as [k2 v2]. unfold mcmp; simpl.
  destruct (vcmp v1 v2) eqn:E; try discriminate.
  intros H. apply vcmp_eq in E. apply Nat.compare_eq in H. congruence.
Qed.

Lemma veval_cons (rho : point) (s : string) (k : nat) (r : vars) :
  veval rho ((s, k) :: r) = rho s ^ k * veval rho r.
Proof. reflexivity. Qed.

Lemma veval_vmul (rho : point) (v1 v2 : vars) :
  veval rho (vmul v1 v2) = veval rho v1 * veval rho v2.
Proof.
  revert v2; induction v1 as [|[a i] r1 IH1]; intros v2; [simpl; ring|].
  induction v2 as [|[b j] r2 IH2]; [rewrite vmul_nil_r; simpl; ring|].
  rewrite vmul_cons. destruct (String.compare a b) eqn:E.
  - apply String.compare_eq_iff in E. subst b.
    rewrite !veval_cons, IH1, pow_add. ring.
  - rewrite (veval_cons rho a i), IH1, !veval_cons. ring.
  - rewrite (veval_cons rho b j), IH2, !veval_cons. ring.
Qed.

Lemma teval_tmul (rho : point) (t1 t2 : term) :
  teval rho (tmul t1 t2) = teval rho t1 * teval rho t2.
Proof.
  unfold teval, tmul, meval, mmul; simpl.
  rewrite mult_IZR, pow_add, veval_vmul. ring.
Qed.

Lemma peval_pinsert (rho : point) (t : term) (p : poly) :
  peval rho (pinsert t p) = teval rho t + peval rho p.
Proof.
  induction p as [|t' r IH]; simpl; [reflexivity|].
  destruct (mcmp (fst t) (fst t')) eqn:E; simpl.
  - apply mcmp_eq in E. destruct (Z.eqb_spec (snd t + snd t') 0) as [Hz|Hz]; simpl.
    + unfold teval. rewrite <- E.
      replace (IZR (snd t')) with (- IZR (snd t)); [ring|].
      rewrite <- opp_IZR. f_equal. lia.
    + unfold teval; simpl. rewrite <- E, plus_IZR. ring.
  - rewrite IH. ring.
  - reflexivity.
Qed.

Lemma peval_padd (rho : point) (p1 p2 : poly) :
  peval rho (padd p1 p2) = peval rho p1 + peval rho p2.
Proof.
  unfold padd. induction p1 as [|t r IH]; simpl; [ring|].
  rewrite peval_pinsert, IH. ring.
Qed.

Lemma peval_pmul_row (rho : point) (t1 : term) (p2 acc : poly) :
  peval rho (fold_right (fun t2 acc' => pinsert (tmul t1 t2) acc') acc p2)
  = teval rho t1 * peval rho p2 + peval rho acc.
Proof.
  induction p2 as [|t2 r IH]; simpl; [ring|].
  rewrite peval_pinsert, teval_tmul, IH. ring.
Qed.

Lemma peval_pmul (rho : point) (p1 p2 : poly) :
  peval rho (pmul p1 p2) = peval rho p1 * peval rho p2.
Proof.
  unfold pmul. induction p1 as [|t r IH]; simpl; [ring|].
  rewrite peval_pmul_row, IH. ring.
Qed.

Lemma peval_pconst (rho : point) (z : Z) : peval rho (pconst z) = IZR z.
Proof.
  unfold pconst. destruct (Z.eqb_spec z 0) as [->|_]; simpl; [reflexivity|].
  unfold teval, meval; simpl. ring.
Qed.

Lemma peval_ppow (rho : point) (p : poly) (k : nat) :
  peval rho (ppow p k) = peval rho p ^ k.
Proof.
  induction k as [|k IH]; simpl ppow.
  - rewrite peval_pconst. reflexivity.
  - rewrite peval_pmul, IH. reflexivity.
Qed.

(** The canonical form has the value of the expression. *)
Lemma canon_sound (rho : point) (e : Expr) : peval rho (canon e) = eval rho e.
Proof.
  induction e as [z|s| |a IHa b IHb|a IHa b IHb|b IHb k]; simpl.
  - apply peval_pconst.
  - unfold teval, meval; simpl. ring.
  - unfold teval, meval; simpl. ring.
  - now rewrite peval_padd, IHa, IHb.
  - now rewrite peval_pmul, IHa, IHb.
  - now rewrite peval_ppow, IHb.
Qed.

Lemma same_value (rho : point) (a b : Expr) :
  same a b -> eval rho a = eval rho b.
Proof. unfold same. intros H. now rewrite <- !canon_sound, H. Qed.

Lemma eval_fold_Mul (rho : point) (l : list Expr) (a : Expr) :
  eval rho (fold_left Mul l a) = eval rho a * Rprod (map (eval rho) l).
Proof.
  revert a; induction l as [|b l IH]; intros a; simpl; [ring|].
  rewrite IH. simpl. ring.
Qed.

Lemma eval_product (rho : point) (l : list Expr) (m : Expr) :
  product l = Some m -> eval rho m = Rprod (map (eval rho) l).
Proof.
  destruct l as [|a r]; simpl; [discriminate|].
  intros [= <-]. apply eval_fold_Mul.
Qed.

Lemma Rprod_app (l1 l2 : list R) : Rprod (l1 ++ l2) = Rprod l1 * Rprod l2.
Proof. induction l1 as [|a l IH]; simpl; [ring | rewrite IH; ring]. Qed.

Lemma Rprod_expr_of_pi (rho : point) (k : nat) :
  Rprod (map (eval rho) (expr_of_pi k)) = PI ^ k.
Proof. destruct k as [|[|k]]; simpl; ring. Qed.

Lemma Rprod_expr_of_var (rho : point) (v : vars) :
  Rprod (map (eval rho) (map expr_of_var v)) = veval rho v.
Proof.
  induction v as [|[s k] r IH]; simpl; [reflexivity|]. rewrite IH.
  unfold expr_of_var; simpl. destruct k as [|[|k]]; simpl; ring.
Qed.

Lemma eval_expr_of_term (rho : point) (t : term) :
  eval rho (expr_of_term t) = teval rho t.
Proof.
  destruct t as [[k v] c]. unfold expr_of_term, teval, meval; simpl.
  pose proof (eval_product rho (expr_of_pi k ++ map expr_of_var v)) as Hp.
  rewrite map_app, Rprod_app, Rprod_expr_of_pi, Rprod_expr_of_var in Hp.
  destruct (product (expr_of_pi k ++ map expr_of_var v)) as [m|] eqn:E.
  - specialize (Hp m eq_refl).
    destruct (Z.eqb_spec c 1) as [->|_]; simpl; rewrite Hp; ring.
  - destruct k as [|[|k]]; destruct v; try discriminate. simpl. ring.
Qed.

Lemma eval_fold_Add (rho : point) (r : poly) (acc : Expr) :
  eval rho (fold_left (fun a t' => Add a (expr_of_term t')) r acc)
  = eval rho acc + peval rho r.
Proof.
  revert acc; induction r as [|t r IH]; intros acc; simpl; [ring|].
  rewrite IH. simpl. rewrite eval_expr_of_term. ring.
Qed.

Lemma eval_expr_of_poly (rho : point) (p : poly) :
  eval rho (expr_of_poly p) = peval rho p.
Proof.
  destruct p as [|t r]; simpl; [reflexivity|].
  now rewrite eval_fold_Add, eval_expr_of_term.
Qed.

(** [simplify] does not change the value. *)
Lemma simplify_sound (rho : point) (e : Expr) :
  eval rho (simplify e) = eval rho e.
Proof. unfold simplify. now rewrite eval_expr_of_poly, canon_sound. Qed.

Lemma derivable_pt_lim_eq (g : R -> R) (a l l' : R) :
  l = l' -> derivable_pt_lim g a l -> derivable_pt_lim g a l'.
Proof. now intros ->. Qed.

(** [diff] is the derivative: the value of [diff e x] is the derivative
    of the value of [e] along the symbol [x]. *)
Lemma diff_sound (x : string) (rho : point) (a : R) (e : Expr) :
  derivable_pt_lim (fun t => eval (move rho x t) e) a
                   (eval (move rho x a) (diff e x)).
Proof.
  induction e as [z|s| |e1 IH1 e2 IH2|e1 IH1 e2 IH2|b IHb k]; simpl.
  - apply (derivable_pt_lim_const (IZR z)).
  - unfold move. destruct (String.eqb s x); simpl.
    + apply derivable_pt_lim_id.
    + apply (derivable_pt_lim_const (rho s)).
  - apply (derivable_pt_lim_const PI).
  - apply (derivable_pt_lim_plus _ _ _ _ _ IH1 IH2).
  - apply (derivable_pt_lim_mult _ _ _ _ _ IH1 IH2).
  - destruct k as [|k]; simpl eval.
    + apply (derivable_pt_lim_const 1).
    + pose proof (derivable_pt_lim_comp _ (fun y => y ^ S k) _ _ _ IHb
                    (derivable_pt_lim_pow _ (S k))) as H.
      revert H. apply derivable_pt_lim_eq.
      rewrite INR_IZR_INZ. reflexivity.
Qed.



End ValueFacts.

(** ** What the code emitter does with pi and with names *)

Module EmitterFacts.
Import Str StrFacts sym PrinterFacts CanonFacts Value ValueFacts.

Lemma print_poly_pi (p : poly) :
  has_pi p = true -> occurs_in "M_PI" (print_poly p).
Proof.
  unfold has_pi. rewrite existsb_exists. intros [t [Hin Hk]].
  apply occurs_print_poly with (t := t); [exact Hin|].
  destruct t as [[[|k] v] c]; [discriminate|].
  apply occurs_trans with (b := print_factor "M_PI" (S k)).
  - apply occurs_print_factor.
  - apply occurs_print_abs_term. unfold print_factors. now left.
Qed.





(** C4, as the claim states it, fails: the code of pi is the macro name,
    and the name [pi] is not in it. *)
Lemma ccode_pi_keeps_macro :
  ccode Pi = "M_PI"
  /\ contains "M_PI" (ccode Pi) = true
  /\ contains "pi" (ccode Pi) = false.
Proof. repeat split. Qed.

(** C4, amended.  The code emitter writes pi with the macro name of C
    and rewrites nothing: the code of every expression that has pi in its
    canonical form contains [M_PI].  The notebook has no table of
    replacements; it gives the two code strings to [Expression] as they
    are, and neither contains [M_PI]. *)
Theorem ccode_writes_pi_as_macro (e : Expr) :
  has_pi (canon e) = true ->
  contains "M_PI" (ccode e) = true
  /\ fenics.cppcode u_D = ccode Symbolic.u
  /\ fenics.cppcode f = ccode Symbolic.f
  /\ contains "M_PI" (ccode Symbolic.u) = false
  /\ contains "M_PI" (ccode Symbolic.f) = false.
Proof.
  intros H. split; [|repeat split].
  apply contains_iff. now apply print_poly_pi.
Qed.

(** The expression [2*pi*x]. *)
Lemma ccode_writes_pi_as_macro_witness :
  contains "M_PI" (ccode (2 * Pi * Symbol Symbolic.x)%py) = true
  /\ fenics.cppcode u_D = ccode Symbolic.u
  /\ fenics.cppcode f = ccode Symbolic.f
  /\ contains "M_PI" (ccode Symbolic.u) = false
  /\ contains "M_PI" (ccode Symbolic.f) = false.
Proof.
  apply (ccode_writes_pi_as_macro (2 * Pi * Symbol Symbolic.x)%py). reflexivity.
Defined.

Example ccode_pi_product : ccode (2 * Pi * Symbol Symbolic.x)%py = "2*M_PI*x[0]".
Proof. vm_compute. reflexivity. Qed.




(** With the usual names the code is not in the syntax of [Expression];
    with the names of the notebook it is. *)
Example ccode_bare_names :
  ccode (1 + Symbol "x" + 2 * Symbol "y")%py = "x + 2*y + 1".
Proof. vm_compute. reflexivity. Qed.

Example names_of_u : names Symbolic.u = ["x[0]"; "x[1]"].
Proof. reflexivity. Qed.

End EmitterFacts.

(** ** The manufactured solution *)

Module SymbolicFacts.
Import sym Symbolic Value ValueFacts.

(** The steps of the derivation, as SymPy shows them. *)
Example diff_u_x : simplify (diff u x) = Integer 1.
Proof. reflexivity. Qed.

Example diff_u_y : simplify (diff u y) = Integer 2.
Proof. reflexivity. Qed.

Example flux_x : ccode (diff (q u * diff u x) x) = "2*x[0] + 4*x[1] + 2".
Proof. vm_compute. reflexivity. Qed.

Example flux_y : ccode (diff (q u * diff u y) y) = "8*x[0] + 16*x[1] + 8".
Proof. vm_compute. reflexivity. Qed.

Lemma eval_ext (rho rho' : point) (e : Expr) :
  (forall s, rho s = rho' s) -> eval rho e = eval rho' e.
Proof.
  intros H. induction e as [z|s| |e1 IH1 e2 IH2|e1 IH1 e2 IH2|b IHb k]; simpl;
    try reflexivity; try apply H; congruence.
Qed.

Lemma move_same (rho : point) (x s : string) : move rho x (rho x) s = rho s.
Proof. unfold move. now destruct (String.eqb_spec s x) as [->|_]. Qed.

(** X7.  The derivation of the source term is right for every
    manufactured solution of the fragment, at every point.  With [ux]
    and [uy] the partial derivatives of the value of [u] along [x] and
    [y], as real analysis defines them, the value of the derived [f] is
    minus the divergence of the flux [(1 + u^2) (ux, uy)]. *)
Lemma derivation_sound (u : Expr) (rho : point) :
  exists (ux uy : R -> R) (gx gy : R),
    (forall t, derivable_pt_lim (fun s => eval (move rho x s) u) t (ux t))
    /\ (forall t, derivable_pt_lim (fun s => eval (move rho y s) u) t (uy t))
    /\ derivable_pt_lim
         (fun t => (1 + eval (move rho x t) u ^ 2) * ux t)%R (rho x) gx
    /\ derivable_pt_lim
         (fun t => (1 + eval (move rho y t) u ^ 2) * uy t)%R (rho y) gy
    /\ (- gx - gy
        = eval rho (simplify (- diff (q u * diff u x) x
                              - diff (q u * diff u y) y)%py))%R.
Proof.
  exists (fun t => eval (move rho x t) (diff u x)),
         (fun t => eval (move rho y t) (diff u y)),
         (eval (move rho x (rho x)) (diff (q u * diff u x) x)),
         (eval (move rho y (rho y)) (diff (q u * diff u y) y)).
  split; [intros t; apply diff_sound|].
  split; [intros t; apply diff_sound|].
  split; [|split].
  - apply derivable_pt_lim_ext
      with (f := fun t => eval (move rho x t) (q u * diff u x)%py);
      [intros t; reflexivity | apply diff_sound].
  - apply derivable_pt_lim_ext
      with (f := fun t => eval (move rho y t) (q u * diff u y)%py);
      [intros t; reflexivity | apply diff_sound].
  - rewrite simplify_sound.
    rewrite (eval_ext _ _ _ (move_same rho x)), (eval_ext _ _ _ (move_same rho y)).
    change ((- diff (q u * diff u x) x - diff (q u * diff u y) y)%py)
      with (Add (Mul (Integer (-1)) (diff (q u * diff u x) x))
                (Mul (Integer (-1)) (diff (q u * diff u y) y))).
    cbn [eval]. ring.
Qed.

(** The value of the manufactured solution and of the derived source
    term at the point [(a, b)]. *)
Lemma value_of_u (a b : R) : (eval (at_xy a b) u = 1 + a + 2 * b)%R.
Proof. simpl. unfold at_xy; simpl. ring. Qed.

Lemma value_of_f (a b : R) : (eval (at_xy a b) f = - 10 * a - 20 * b - 10)%R.
Proof.
  replace f with (Integer (-10) * x + Integer (-20) * y + Integer (-10))%py
    by (vm_compute; reflexivity).
  simpl. unfold at_xy; simpl. ring.
Qed.

(** The partial derivatives of [u]. *)
Lemma u_x_derivative (a b : R) :
  derivable_pt_lim (fun t => 1 + t + 2 * b)%R a 1%R.
Proof.
  apply derivable_pt_lim_eq with (l := eval (move (at_xy a b) x a) (diff u x)).
  - simpl. unfold move, at_xy; simpl. ring.
  - apply derivable_pt_lim_ext
      with (f := fun t => eval (move (at_xy a b) x t) u).
    + intros t. simpl. unfold move, at_xy; simpl. ring.
    + apply diff_sound.
Qed.

Lemma u_y_derivative (a b : R) :
  derivable_pt_lim (fun t => 1 + a + 2 * t)%R b 2%R.
Proof.
  apply derivable_pt_lim_eq with (l := eval (move (at_xy a b) y b) (diff u y)).
  - simpl. unfold move, at_xy; simpl. ring.
  - apply derivable_pt_lim_ext
      with (f := fun t => eval (move (at_xy a b) y t) u).
    + intros t. simpl. unfold move, at_xy; simpl. ring.
    + apply diff_sound.
Qed.

(** The fluxes [q(u) du/dx] and [q(u) du/dy] as functions of one
    coordinate, and their derivatives as [diff] gives them. *)
Lemma flux_x_derivative (a b : R) :
  derivable_pt_lim (fun t => (1 + (1 + t + 2 * b) ^ 2) * 1)%R a
    (eval (at_xy a b) (diff (q u * diff u x) x)).
Proof.
  apply derivable_pt_lim_eq
    with (l := eval (move (at_xy a b) x a) (diff (q u * diff u x) x)).
  - simpl. unfold move, at_xy; simpl. ring.
  - apply derivable_pt_lim_ext
      with (f := fun t => eval (move (at_xy a b) x t) (q u * diff u x)%py).
    + intros t. simpl. unfold move, at_xy; simpl. ring.
    + apply diff_sound.
Qed.

Lemma flux_y_derivative (a b : R) :
  derivable_pt_lim (fun t => (1 + (1 + a + 2 * t) ^ 2) * 2)%R b
    (eval (at_xy a b) (diff (q u * diff u y) y)).
Proof.
  apply derivable_pt_lim_eq
    with (l := eval (move (at_xy a b) y b) (diff (q u * diff u y) y)).
  - simpl. unfold move, at_xy; simpl. ring.
  - apply derivable_pt_lim_ext
      with (f := fun t => eval (move (at_xy a b) y t) (q u * diff u y)%py).
    + intros t. simpl. unfold move, at_xy; simpl. ring.
    + apply diff_sound.
Qed.

(** C1.  Manufactured-solution identity: for [u = 1 + x + 2y] and
    [q(u) = 1 + u^2], the source term [f] that the notebook derives
    satisfies the equation in strong form.  The expression
    [-d/dx(q(u) du/dx) - d/dy(q(u) du/dy) - f] simplifies to [0]; and at
    every point [(a, b)], where [u] is [1 + a + 2b] with the partial
    derivatives [1] and [2], the value of [f] is minus the divergence of
    the flux [q(u) grad u], with the derivatives of real analysis. *)
Theorem manufactured_solution_identity (a b : R) :
  simplify (- diff (q u * diff u x) x - diff (q u * diff u y) y - f)%py
  = Integer 0
  /\ (eval (at_xy a b) u = 1 + a + 2 * b)%R
  /\ derivable_pt_lim (fun t => 1 + t + 2 * b)%R a 1%R
  /\ derivable_pt_lim (fun t => 1 + a + 2 * t)%R b 2%R
  /\ exists gx gy : R,
      derivable_pt_lim (fun t => (1 + (1 + t + 2 * b) ^ 2) * 1)%R a gx
      /\ derivable_pt_lim (fun t => (1 + (1 + a + 2 * t) ^ 2) * 2)%R b gy
      /\ (- gx - gy = eval (at_xy a b) f)%R.
Proof.
  split; [vm_compute; reflexivity|].
  split; [apply value_of_u|].
  split; [apply u_x_derivative|]. split; [apply u_y_derivative|].
  exists (eval (at_xy a b) (diff (q u * diff u x) x)),
         (eval (at_xy a b) (diff (q u * diff u y) y)).
  split; [apply flux_x_derivative|]. split; [apply flux_y_derivative|].
  unfold f. rewrite simplify_sound. simpl. unfold at_xy; simpl. ring.
Qed.

(** C2.  Literal derivation check: the derived and simplified source term
    is the polynomial [-10x - 20y - 10], and its code string is exactly
    [-10*x[0] - 20*x[1] - 10]. *)
Theorem literal_derivation :
  f = (Integer (-10) * x + Integer (-20) * y + Integer (-10))%py
  /\ same f (Integer (-10) * x - 20 * y - 10)%py
  /\ f_code = "-10*x[0] - 20*x[1] - 10".
Proof. repeat split; vm_compute; reflexivity. Qed.

Example u_code_value : u_code = "x[0] + 2*x[1] + 1".
Proof. vm_compute. reflexivity. Qed.

End SymbolicFacts.

(** ** The error evaluator at the edges *)

Section ErrorEvaluatorEdges.

Variable T : Type.
Variable sub : T -> T -> T.
Variable leb : T -> T -> bool.
Variable fe : fenics.Interface T.

Lemma zip_with_length_min (g : T -> T -> T) (a b : list T) :
  List.length (np.zip_with g a b) = Nat.min (List.length a) (List.length b).
Proof.
  revert b; induction a as [|x a IH]; intros [|y b]; simpl; try reflexivity.
  now rewrite IH.
Qed.

Lemma zip_with_repeat_l (x : T) (b : list T) :
  np.zip_with sub (repeat x (List.length b)) b = map (fun y => sub x y) b.
Proof. induction b as [|y b IH]; simpl; [reflexivity | now rewrite IH]. Qed.

Lemma zip_with_repeat_r (y : T) (a : list T) :
  np.zip_with sub a (repeat y (List.length a)) = map (fun x => sub x y) a.
Proof. induction a as [|x a IH]; simpl; [reflexivity | now rewrite IH]. Qed.

(** The subtraction with an array of one entry is the subtraction of the
    two arrays stretched to the longer shape. *)
Lemma subtract_broadcast (a b : list T) :
  List.length a = 1%nat \/ List.length b = 1%nat ->
  a <> [] -> b <> [] ->
  np.subtract sub a b
  = inr (np.zip_with sub
           (np.broadcast_to a (Nat.max (List.length a) (List.length b)))
           (np.broadcast_to b (Nat.max (List.length a) (List.length b)))).
Proof.
  intros H Ha Hb.
  destruct a as [|x [|x' a]]; [congruence| |];
    destruct b as [|y [|y' b]]; try congruence.
  - reflexivity.
  - unfold np.subtract, np.broadcast_to.
    change (Nat.max (List.length [x]) (List.length (y :: y' :: b)))
      with (List.length (y :: y' :: b)).
    now rewrite zip_with_repeat_l.
  - unfold np.subtract, np.broadcast_to.
    change (Nat.max (List.length (x :: x' :: a)) (List.length [y]))
      with (List.length (x :: x' :: a)).
    now rewrite zip_with_repeat_r.
  - simpl in H. destruct H; discriminate.
Qed.

(** X1.  When either sample has no entry, [print_max_error] raises
    [ValueError], from the subtraction or from the maximum of an empty
    array, and prints nothing. *)
Theorem print_max_error_empty (w : World T fe) :
  exact_values T fe w = [] \/ computed_values T fe w = [] ->
  print_max_error T sub leb fe w = (w, inl ValueError).
Proof.
  intros H. unfold print_max_error, bind, lift.
  fold (exact_values T fe w). fold (computed_values T fe w).
  destruct H as [-> | ->].
  - destruct (computed_values T fe w) as [|y [|y' b]]; reflexivity.
  - destruct (exact_values T fe w) as [|x [|x' a]]; reflexivity.
Qed.

(** The only exception of [print_max_error] is [ValueError], and then
    nothing has been printed; otherwise it prints one line.  Nothing else
    of the world changes. *)
Lemma print_max_error_outcomes (w : World T fe) :
  print_max_error T sub leb fe w = (w, inl ValueError)
  \/ exists m, print_max_error T sub leb fe w
               = (emit T fe w [[VStr "Max error is: "; VFloat m]], inr tt).
Proof.
  unfold print_max_error, bind, lift.
  destruct (np.subtract sub _ _) as [e|d] eqn:Es.
  - left. unfold np.subtract in Es.
    destruct (Nat.eqb _ _); [discriminate|].
    destruct (fenics.compute_vertex_values T fe _) as [|x [|x' a]];
      destruct (fenics.compute_vertex_values T fe _) as [|y [|y' b]];
      try discriminate; now injection Es as <-.
  - destruct d as [|z d]; simpl; [now left|].
    right. eexists. reflexivity.
Qed.

(** The loop of [print_errors] from index [i]: it prints the lines of
    the vertices for which both arrays have a value and raises
    [IndexError] at the first vertex for which one has none. *)
Lemma print_errors_from_outcome (coor : list (T * T)) (u0 u1 : list T) :
  forall (i : nat) (w : World T fe),
    (i <= Nat.min (List.length u0) (List.length u1))%nat ->
    print_errors_from T sub fe i coor u0 u1 w
    = (emit T fe w (error_table T i coor (skipn i (np.zip_with sub u0 u1))),
       if (Nat.min (List.length u0) (List.length u1) <? i + List.length coor)%nat
       then inl IndexError else inr tt).
Proof.
  induction coor as [|x coor IH]; intros i w Hi.
  - simpl. unfold ret. rewrite emit_nil.
    destruct (Nat.ltb_spec (Nat.min (List.length u0) (List.length u1)) (i + 0));
      [lia | reflexivity].
  - destruct (Nat.lt_ge_cases i (Nat.min (List.length u0) (List.length u1)))
      as [Hlt|Hge].
    + destruct (nth_error u0 i) as [a|] eqn:Ea;
        [|apply nth_error_None in Ea; lia].
      destruct (nth_error u1 i) as [b|] eqn:Eb;
        [|apply nth_error_None in Eb; lia].
      pose proof (npFacts.zip_with_nth T sub u0 u1 i a b Ea Eb) as Ez.
      assert (Hs : skipn i (np.zip_with sub u0 u1)
                   = sub a b :: skipn (S i) (np.zip_with sub u0 u1)).
      { clear -Ez. revert Ez. generalize (np.zip_with sub u0 u1) as l.
        induction i as [|i IHi]; intros [|z l]; simpl; try discriminate.
        - now intros [= ->].
        - apply IHi. }
      simpl print_errors_from. unfold bind, lift, np.item.
      rewrite Ea, Eb. unfold print at 1.
      rewrite IH by lia. rewrite emit_emit, Hs.
      replace (S i + List.length coor)%nat
        with (i + List.length (x :: coor))%nat by (simpl; lia).
      reflexivity.
    + assert (Hs : skipn i (np.zip_with sub u0 u1) = []).
      { apply skipn_all2. rewrite zip_with_length_min. lia. }
      rewrite Hs.
      destruct (Nat.ltb_spec (Nat.min (List.length u0) (List.length u1))
                             (i + List.length (x :: coor)));
        [|simpl in *; lia].
      simpl. rewrite emit_nil. unfold bind, lift, np.item.
      destruct (nth_error u0 i) as [a|] eqn:Ea; [|reflexivity].
      destruct (nth_error u1 i) as [b|] eqn:Eb; [|reflexivity].
      assert (i < List.length u0)%nat by (apply nth_error_Some; congruence).
      assert (i < List.length u1)%nat by (apply nth_error_Some; congruence).
      lia.
Qed.

(** X2.  [print_errors] prints the table of the vertices for which both
    samples have a value, in the order of the vertices, and raises
    [IndexError] exactly when a sample is shorter than the list of the
    vertices; the lines before the missing value stay printed.  Values
    past the last vertex are ignored, and two samples of different
    lengths are no error by themselves. *)
Theorem print_errors_outcome (w : World T fe) :
  print_errors T sub fe w
  = (emit T fe w (error_table T 0 (vertices T fe w) (differences T sub fe w)),
     if (Nat.min (List.length (exact_values T fe w))
                 (List.length (computed_values T fe w))
         <? List.length (vertices T fe w))%nat
     then inl IndexError else inr tt)
  /\ List.length (error_table T 0 (vertices T fe w) (differences T sub fe w))
     = Nat.min (List.length (vertices T fe w))
               (Nat.min (List.length (exact_values T fe w))
                        (List.length (computed_values T fe w))).
Proof.
  split.
  - unfold print_errors.
    fold (exact_values T fe w). fold (computed_values T fe w).
    fold (vertices T fe w).
    rewrite print_errors_from_outcome by lia. reflexivity.
  - unfold differences. rewrite <- (zip_with_length_min sub).
    generalize (np.zip_with sub (exact_values T fe w) (computed_values T fe w))
      as ds.
    generalize (vertices T fe w) as coor. generalize 0%nat as i.
    intros i coor; revert i; induction coor as [|x coor IH];
      intros i [|d ds]; simpl; try reflexivity.
    now rewrite IH.
Qed.

Hypothesis leb_total : forall a b, leb a b = true \/ leb b a = true.
Hypothesis leb_trans :
  forall a b c, leb a b = true -> leb b c = true -> leb a c = true.

(** X3.  When one of the two samples has a single entry and the other
    is not empty, [print_max_error] raises nothing: the single entry is
    stretched to the length of the other sample, and the line printed is
    the maximum of the differences against it. *)
Theorem print_max_error_stretches_single_entry (w : World T fe) :
  List.length (exact_values T fe w) = 1%nat
  \/ List.length (computed_values T fe w) = 1%nat ->
  exact_values T fe w <> [] ->
  computed_values T fe w <> [] ->
  List.length (broadcast_differences T sub fe w)
  = Nat.max (List.length (exact_values T fe w))
            (List.length (computed_values T fe w))
  /\ exists m,
      print_max_error T sub leb fe w
      = (emit T fe w [[VStr "Max error is: "; VFloat m]], inr tt)
      /\ In m (broadcast_differences T sub fe w)
      /\ forall d, In d (broadcast_differences T sub fe w) -> leb d m = true.
Proof.
  intros H1 Ha Hb.
  assert (Hlen : List.length (broadcast_differences T sub fe w)
                 = Nat.max (List.length (exact_values T fe w))
                           (List.length (computed_values T fe w))).
  { unfold broadcast_differences. rewrite zip_with_length_min.
    unfold np.broadcast_to.
    destruct (exact_values T fe w) as [|x [|x' a]]; [congruence| |];
      destruct (computed_values T fe w) as [|y [|y' b]]; try congruence;
      rewrite ?repeat_length; simpl in *; lia. }
  split; [exact Hlen|].
  assert (Hd : broadcast_differences T sub fe w <> []).
  { intros E. apply (f_equal (@List.length T)) in E. rewrite Hlen in E.
    destruct (exact_values T fe w); [congruence|].
    cbn [List.length] in E. lia. }
  destruct (npFacts.max_spec T leb leb_total leb_trans _ Hd)
    as [m [Hm [Hin Hle]]].
  exists m. split; [|split; assumption].
  unfold print_max_error, bind, lift.
  fold (exact_values T fe w). fold (computed_values T fe w).
  rewrite (subtract_broadcast _ _ H1 Ha Hb).
  fold (broadcast_differences T sub fe w). rewrite Hm. reflexivity.
Qed.

End ErrorEvaluatorEdges.

Lemma print_max_error_empty_witness :
  print_max_error Z Z.sub Z.leb _ (sampled_world [] [1; 2; 3] [])
  = (sampled_world [] [1; 2; 3] [], inl ValueError).
Proof.
  apply (print_max_error_empty Z Z.sub Z.leb (sampled [] [1; 2; 3] [])).
  left. reflexivity.
Defined.

Lemma print_max_error_stretches_single_entry_witness :
  List.length (broadcast_differences Z Z.sub _ (sampled_world [5; 7; 6] [2] []))
  = Nat.max (List.length (exact_values Z _ (sampled_world [5; 7; 6] [2] [])))
            (List.length (computed_values Z _ (sampled_world [5; 7; 6] [2] [])))
  /\ exists m,
      print_max_error Z Z.sub Z.leb _ (sampled_world [5; 7; 6] [2] [])
      = (emit Z _ (sampled_world [5; 7; 6] [2] [])
           [[VStr "Max error is: "; VFloat m]], inr tt)
      /\ In m (broadcast_differences Z Z.sub _ (sampled_world [5; 7; 6] [2] []))
      /\ forall d,
          In d (broadcast_differences Z Z.sub _ (sampled_world [5; 7; 6] [2] [])) ->
          (d <=? m) = true.
Proof.
  apply (print_max_error_stretches_single_entry Z Z.sub Z.leb (sampled [5; 7; 6] [2] [])
           Zleb_total Zleb_trans);
    simpl; [right; reflexivity | discriminate | discriminate].
Defined.

Example print_max_error_stretches_single_entry_run :
  print_max_error Z Z.sub Z.leb _ (sampled_world [5; 7; 6] [2] [])
  = (emit Z _ (sampled_world [5; 7; 6] [2] [])
       [[VStr "Max error is: "; VFloat 5]], inr tt).
Proof. reflexivity. Qed.

(** Three vertices and samples of two and four values: two lines, then
    the exception. *)
Example print_errors_outcome_run :
  print_errors Z Z.sub _
    (sampled_world [3; 5] [1; 1; 1; 1] [(0, 0); (1, 0); (0, 1)])
  = (emit Z _ (sampled_world [3; 5] [1; 1; 1; 1] [(0, 0); (1, 0); (0, 1)])
       [ [VFormat "vertex %2d (%9g,%9g): error=%g" [AInt 0; AFloat 0; AFloat 0; AFloat 2]];
         [VFormat "vertex %2d (%9g,%9g): error=%g" [AInt 1; AFloat 1; AFloat 0; AFloat 4]] ],
     inl IndexError).
Proof. reflexivity. Qed.

(** ** The two calls of the solver *)

Section SolverCalls.

Variable T : Type.
Variable sub : T -> T -> T.
Variable leb : T -> T -> bool.
Variable fe : fenics.Interface T.

(** X4.  When Newton's method does not converge in the first call, the
    run ends there with the solver's exception: the solver has been called
    once, [u] holds the iterate at which it stopped, and no error has
    been printed after the two code strings. *)
Theorem notebook_stops_when_solve_fails (n0 : Z) (e : Exception) :
  snd (first_solve T fe n0) = inl e ->
  snd (notebook T sub leb fe n0) = inl e
  /\ solves T fe (fst (notebook T sub leb fe n0))
     = [(F, u T fe (cell_mesh T fe n0), bc T fe (cell_mesh T fe n0), [])]
  /\ u T fe (fst (notebook T sub leb fe n0)) = fst (first_solve T fe n0)
  /\ stdout T fe (fst (notebook T sub leb fe n0)) = Symbolic.printed.
Proof.
  intros H.
  assert (E : notebook T sub leb fe n0
              = (fst (solve T fe [] (cell_mesh T fe n0)), inl e)).
  { unfold notebook, cells, bind.
    change (solve T fe [] (cell_mesh T fe n0))
      with (fst (solve T fe [] (cell_mesh T fe n0)), snd (first_solve T fe n0)).
    now rewrite H. }
  rewrite E. repeat split.
Qed.

(** X5.  When the run completes, the solver has been called twice with
    the same form and boundary condition: first from the fresh function
    [Function(V)] with the default parameters, then, with the relative
    tolerance set, from the function that the first call left in [u].
    [u] ends as the second call leaves it, and one error line has been
    printed after each call. *)
Theorem notebook_second_solve_starts_from_first (n0 : Z) :
  snd (notebook T sub leb fe n0) = inr tt ->
  solves T fe (fst (notebook T sub leb fe n0))
  = [ (F, fenics.Function T fe (V T fe (cell_mesh T fe n0)),
       bc T fe (cell_mesh T fe n0), []);
      (F, fst (first_solve T fe n0),
       bc T fe (cell_mesh T fe n0), tolerance_parameters) ]
  /\ u T fe (fst (notebook T sub leb fe n0)) = fst (second_solve T fe n0)
  /\ exists m1 m2,
      stdout T fe (fst (notebook T sub leb fe n0))
      = (Symbolic.printed
         ++ [ [VStr "Max error is: "; VFloat m1];
              [VStr "Max error is: "; VFloat m2] ])%list.
Proof.
  unfold notebook, cells, bind.
  set (w0 := cell_mesh T fe n0).
  change (solve T fe [] w0)
    with (fst (solve T fe [] w0), snd (first_solve T fe n0)).
  set (w1 := fst (solve T fe [] w0)).
  destruct (snd (first_solve T fe n0)) as [e|[]];
    [cbv beta iota delta [snd]; discriminate|].
  destruct (print_max_error_outcomes T sub leb fe w1) as [P1|[m1 P1]];
    rewrite P1; [cbv beta iota delta [snd]; discriminate|].
  set (w2 := emit T fe w1 [[VStr "Max error is: "; VFloat m1]]).
  change (solve T fe _ w2)
    with (fst (solve T fe tolerance_parameters w2), snd (second_solve T fe n0)).
  set (w3 := fst (solve T fe tolerance_parameters w2)).
  destruct (snd (second_solve T fe n0)) as [e|[]];
    [cbv beta iota delta [snd]; discriminate|].
  destruct (print_max_error_outcomes T sub leb fe w3) as [P2|[m2 P2]];
    rewrite P2; [cbv beta iota delta [snd]; discriminate|].
  intros _. repeat split. exists m1, m2. reflexivity.
Qed.

End SolverCalls.

Lemma notebook_stops_when_solve_fails_witness :
  snd (notebook Z Z.sub Z.leb (stalled [1; 2] [0; 0] [7; 7] []) 16)
  = inl RuntimeError
  /\ solves Z _ (fst (notebook Z Z.sub Z.leb (stalled [1; 2] [0; 0] [7; 7] []) 16))
     = [(F, u Z _ (cell_mesh Z (stalled [1; 2] [0; 0] [7; 7] []) 16),
         bc Z _ (cell_mesh Z (stalled [1; 2] [0; 0] [7; 7] []) 16), [])]
  /\ u Z _ (fst (notebook Z Z.sub Z.leb (stalled [1; 2] [0; 0] [7; 7] []) 16))
     = fst (first_solve Z (stalled [1; 2] [0; 0] [7; 7] []) 16)
  /\ stdout Z _ (fst (notebook Z Z.sub Z.leb (stalled [1; 2] [0; 0] [7; 7] []) 16))
     = Symbolic.printed.
Proof.
  apply (notebook_stops_when_solve_fails Z Z.sub Z.leb
           (stalled [1; 2] [0; 0] [7; 7] []) 16 RuntimeError).
  reflexivity.
Defined.

Lemma notebook_second_solve_starts_from_first_witness :
  solves Z _ (fst (notebook Z Z.sub Z.leb (sampled [1; 2] [1; 2] []) 16))
  = [ (F, fenics.Function Z (sampled [1; 2] [1; 2] [])
            (V Z _ (cell_mesh Z (sampled [1; 2] [1; 2] []) 16)),
       bc Z _ (cell_mesh Z (sampled [1; 2] [1; 2] []) 16), []);
      (F, fst (first_solve Z (sampled [1; 2] [1; 2] []) 16),
       bc Z _ (cell_mesh Z (sampled [1; 2] [1; 2] []) 16), tolerance_parameters) ]
  /\ u Z _ (fst (notebook Z Z.sub Z.leb (sampled [1; 2] [1; 2] []) 16))
     = fst (second_solve Z (sampled [1; 2] [1; 2] []) 16)
  /\ exists m1 m2,
      stdout Z _ (fst (notebook Z Z.sub Z.leb (sampled [1; 2] [1; 2] []) 16))
      = (Symbolic.printed
         ++ [ [VStr "Max error is: "; VFloat m1];
              [VStr "Max error is: "; VFloat m2] ])%list.
Proof.
  apply (notebook_second_solve_starts_from_first Z Z.sub Z.leb
           (sampled [1; 2] [1; 2] []) 16).
  reflexivity.
Defined.

(** ** The code strings of another manufactured solution *)

Module DerivedCodeFacts.
Import Str StrFacts sym PrinterFacts CanonFacts Symbolic.



























End DerivedCodeFacts.

(** ** The coefficient and the source term of a linear solution *)

Module CoefficientFacts.
Import sym Symbolic Value ValueFacts.
Local Open Scope R_scope.

(** X8.  The nonlinear coefficient is [1 + u^2] at every point, and so
    never below [1]: the equation stays elliptic whatever the solution. *)
Theorem q_at_least_one (rho : point) (u : Expr) :
  eval rho (q u) = 1 + eval rho u ^ 2 /\ 1 <= eval rho (q u).
Proof.
  split; [reflexivity|].
  change (eval rho (q u)) with (1 + eval rho u ^ 2).
  pose proof (pow2_ge_0 (eval rho u)) as H.
  apply Rplus_le_reg_l with (r := -1).
  replace (-1 + 1) with 0 by ring.
  replace (-1 + (1 + eval rho u ^ 2)) with (eval rho u ^ 2) by ring.
  exact H.
Qed.

(** X9.  For every solution that is linear in [x] and [y],
    [u = c0 + c1*x + c2*y], the derived source term is linear too: it is
    [-2 (c1^2 + c2^2) u].  An [Expression] of degree 1 holds it without
    loss. *)
Theorem source_term_of_linear_solution (c0 c1 c2 : Z) (a b : R) :
  eval (at_xy a b)
    (simplify (- diff (q (c0 + c1 * x + c2 * y)%py
                       * diff (c0 + c1 * x + c2 * y)%py x) x
               - diff (q (c0 + c1 * x + c2 * y)%py
                       * diff (c0 + c1 * x + c2 * y)%py y) y)%py)
  = - 2 * (IZR c1 ^ 2 + IZR c2 ^ 2) * (IZR c0 + IZR c1 * a + IZR c2 * b).
Proof.
  rewrite simplify_sound. simpl. unfold at_xy; simpl. ring.
Qed.

Example source_term_of_u (a b : R) :
  - 2 * (IZR 1 ^ 2 + IZR 2 ^ 2) * (IZR 1 + IZR 1 * a + IZR 2 * b)
  = - 10 * a - 20 * b - 10.
Proof. ring. Qed.

End CoefficientFacts.
